(** * IL2CppUsageAnalyzer: the IDA cross-reference dump script

  A shallow embedding of [DisassemblerScripts/ida_dump_xrefs.py] and the
  properties of its name normaliser ([clean_demangled]) and of the loop
  that fills [xref_data].

  Python values are modelled as follows.
  - A [str] is the list of its Unicode code points.
  - [None]-or-a-value is an [option].
  - A call into the IDA API either returns or raises: [result].
  - A generator (here [XrefsTo]) is the finite sequence of what it yields,
    ended by exhaustion or by an exception: [generator].
  - The dict [xref_data] is a finite map keyed by [str]. *)

From Stdlib Require Import NArith ZArith Ascii String.
From stdpp Require Import gmap list sorting.

(** ** Python strings *)

Abbreviation str := (list N).

(** The code points of an ASCII literal. *)
Definition py (s : string) : str :=
  (λ a, N_of_ascii a) <$> list_ascii_of_string s.

Module Str.

(** [s.startswith(p)] *)
Fixpoint startswith (p s : str) : bool :=
  match p, s with
  | [], _ => true
  | _ :: _, [] => false
  | a :: p', b :: s' => (a =? b)%N && startswith p' s'
  end.

(** [sub in s] *)
Fixpoint contains (sub s : str) : bool :=
  startswith sub s ||
  match s with
  | [] => false
  | _ :: s' => contains sub s'
  end.

(** [s.find(sub)]: the lowest index at which [sub] occurs, [-1] if none.
    [find_from] carries the index of the head of the remaining text. *)
Fixpoint find_from (sub s : str) (i : Z) : Z :=
  if startswith sub s then i
  else match s with
       | [] => (-1)%Z
       | _ :: s' => find_from sub s' (i + 1)
       end.

Definition find (sub s : str) : Z := find_from sub s 0.

(** [s.rfind(sub)]: the highest index at which [sub] occurs, [-1] if none. *)
Fixpoint rfind_from (sub s : str) (i : Z) : Z :=
  match s with
  | [] => if startswith sub [] then i else (-1)%Z
  | _ :: s' =>
      let r := rfind_from sub s' (i + 1) in
      if (r =? -1)%Z then (if startswith sub s then i else (-1)%Z) else r
  end.

Definition rfind (sub s : str) : Z := rfind_from sub s 0.

(** A slice bound as Python resolves it: a negative bound counts from the
    end, and the result is clamped to [0 .. len(s)]. *)
Definition bound (s : str) (i : Z) : nat :=
  let n := Z.of_nat (length s) in
  let j := if (i <? 0)%Z then (n + i)%Z else i in
  Z.to_nat (Z.min n (Z.max 0 j)).

(** [s[:i]] *)
Definition slice_to (s : str) (i : Z) : str := take (bound s i) s.

(** [s[i:]] *)
Definition slice_from (s : str) (i : Z) : str := drop (bound s i) s.

(** [s.replace(old, new)] for a one-character [old]. *)
Fixpoint replace (old : N) (new : str) (s : str) : str :=
  match s with
  | [] => []
  | c :: s' =>
      if (c =? old)%N then new ++ replace old new s'
      else c :: replace old new s'
  end.

(** What [\s] matches in a [str] pattern: the ASCII white space
    (tab .. carriage return, the four separators 0x1C .. 0x1F, space)
    and the Unicode white space above it. *)
Definition isspace (c : N) : bool :=
  ((9 <=? c) && (c <=? 13) || (28 <=? c) && (c <=? 32)
   || (c =? 0x85) || (c =? 0xA0) || (c =? 0x1680)
   || (0x2000 <=? c) && (c <=? 0x200A)
   || (c =? 0x2028) || (c =? 0x2029) || (c =? 0x202F)
   || (c =? 0x205F) || (c =? 0x3000))%N.

(** Lexicographic comparison of code points, Python's [a <= b] on [str]. *)
Fixpoint leb (a b : str) : bool :=
  match a, b with
  | [], _ => true
  | _ :: _, [] => false
  | x :: a', y :: b' =>
      if (x <? y)%N then true
      else if (x =? y)%N then leb a' b'
      else false
  end.

Definition le (a b : str) : Prop := leb a b = true.

End Str.

(** ** Regular expressions used by the script *)

Module Re.

Definition NEWLINE : N := 10.

(** [.*lit] anchored at the head of [s]: [.] is any character but a
    newline, so the literal has to start before the first newline. *)
Fixpoint dotstar_then (lit s : str) : bool :=
  Str.startswith lit s ||
  match s with
  | [] => false
  | c :: s' => if (c =? NEWLINE)%N then false else dotstar_then lit s'
  end.

(** Drop the literal [p] from the head of [s]. *)
Fixpoint strip (p s : str) : option str :=
  match p, s with
  | [], _ => Some s
  | _ :: _, [] => None
  | a :: p', b :: s' => if (a =? b)%N then strip p' s' else None
  end.

(** [re.search(r'TryGet.*Array', s)] as a truth value: some position
    where [TryGet] starts and [.*Array] matches what follows. *)
Fixpoint search_TryGet_Array (s : str) : bool :=
  match strip (py "TryGet") s with
  | Some rest => dotstar_then (py "Array") rest
  | None => false
  end ||
  match s with
  | [] => false
  | _ :: s' => search_TryGet_Array s'
  end.

(** [re.sub(r'\s+', '', s)]: every maximal run of white space is replaced
    by the empty string, which drops each white-space character. *)
Fixpoint sub_spaces (s : str) : str :=
  match s with
  | [] => []
  | c :: s' => if Str.isspace c then sub_spaces s' else c :: sub_spaces s'
  end.

End Re.

(** ** [clean_demangled] *)

Definition SPACE : N := 32.
Definition AMP : N := 38.

(** Lines 14-19: cut the return type in front of the qualified name. *)
Definition strip_return_type (name : str) : str :=
  let first_colon := Str.find (py "::") name in
  if negb (first_colon =? -1)%Z then
    let prefix := Str.slice_to name first_colon in
    let last_space := Str.rfind [SPACE] prefix in
    if negb (last_space =? -1)%Z then Str.slice_from name (last_space + 1)
    else name
  else name.

(** Lines 21-22: mark the references of a [TryGet...Array] method. *)
Definition mark_array_refs (name : str) : str :=
  if Re.search_TryGet_Array name then Str.replace AMP (py "[]&") name
  else name.

Definition clean_demangled (name : str) : str :=
  let name := strip_return_type name in
  let name := mark_array_refs name in
  let name := Re.sub_spaces name in
  name.

(** No character of [s] is white space. *)
Definition whitespace_free (s : str) : Prop :=
  Forall (λ c, Str.isspace c = false) s.

(** ** The wording of the specification, for comparison

    The specification describes the first step with "the last whitespace
    character" of the prefix and the second with "contains [TryGet],
    followed later by [Array]". These definitions follow those words; the
    code above is compared with them below. *)

Module Spec.

(** The text in front of the first occurrence of [sub]. *)
Fixpoint before_first (sub s : str) : str :=
  if Str.startswith sub s then []
  else match s with
       | [] => []
       | c :: s' => c :: before_first sub s'
       end.

(** The index of the last character of [s] that satisfies [P]. *)
Fixpoint last_index (P : N → bool) (s : str) : option nat :=
  match s with
  | [] => None
  | c :: s' =>
      match last_index P s' with
      | Some j => Some (S j)
      | None => if P c then Some 0 else None
      end
  end.

(** Step 1 in the specification's words: cut after the last white-space
    character of the prefix. *)
Definition truncate_at_last_whitespace (name : str) : str :=
  if Str.contains (py "::") name then
    match last_index Str.isspace (before_first (py "::") name) with
    | Some j => drop (S j) name
    | None => name
    end
  else name.

(** "Contains [TryGet], followed later by [Array]". *)
Definition TryGet_then_Array (name : str) : Prop :=
  ∃ a b c, name = a ++ py "TryGet" ++ b ++ py "Array" ++ c.

(** The same, with nothing but characters that [.] matches in between. *)
Definition TryGet_then_Array_on_a_line (name : str) : Prop :=
  ∃ a b c, name = a ++ py "TryGet" ++ b ++ py "Array" ++ c ∧ Re.NEWLINE ∉ b.

End Spec.

(** ** The IDA API, as the script uses it *)

(** An exception of class [Exception], the class the handler of the loop
    names: its class name and its text. *)
Record exn := Exn { exn_class : string; exn_text : string }.

(** A call either returns a value or raises. *)
Inductive result (A : Type) : Type :=
| Ok (a : A)
| Raise (e : exn).
Arguments Ok {A} a.
Arguments Raise {A} e.

(** Sequencing: an exception of the first call ends the computation. *)
Definition bind {A B} (m : result A) (k : A → result B) : result B :=
  match m with
  | Ok a => k a
  | Raise e => Raise e
  end.

Notation "x <- m ;; k" := (bind m (λ x, k))
  (at level 100, m at next level, right associativity,
   format "'[v' x  <-  m  ;; '/' k ']'").

(** A generator: what it yields, in order, until it is exhausted or it
    raises. *)
Inductive generator (A : Type) : Type :=
| gen_stop
| gen_yield (a : A) (rest : generator A)
| gen_raise (e : exn).
Arguments gen_stop {A}.
Arguments gen_yield {A} a rest.
Arguments gen_raise {A} e.

(** The values a generator yields before it stops or raises. *)
Fixpoint gen_items {A} (g : generator A) : list A :=
  match g with
  | gen_yield a rest => a :: gen_items rest
  | _ => []
  end.

(** The queries of the analysis engine. Addresses and flags are Python
    integers; a name is a [str] or [None]. [XrefsTo ea flags] yields the
    [frm] address of each cross-reference to [ea]. *)
Record Engine := {
  get_full_flags : Z → result Z;
  is_code : Z → result bool;
  get_name : Z → result (option str);
  get_func_name : Z → result (option str);
  demangle_name : option str → Z → result (option str);
  XrefsTo : Z → Z → generator Z;
}.

(** MSVC *)
Definition DEMANGLER : Z := 3.

(** The truth value of a name: [None] and the empty string are false. *)
Definition truthy (name : option str) : bool :=
  match name with
  | Some (_ :: _) => true
  | _ => false
  end.

(** ** The filter on target names *)

(** Lines 54-59. *)
Definition skipped_namespaces : list str :=
  py <$> [ "UnityEngine::"; "Unity::"; "UnityEngineInternal::";
           "Microsoft::VisualBasic"; "System::"; "Mono::"; "MS::Internal";
           "Microsoft::Win32"; "Interop::"; "Epic::"; "Sentry::";
           "Steamworks::"; "Newtonsoft::Json:"; "TMPro::";
           "Epic::OnlineServices"; "PolyfillExtensions::";
           "Microsoft::CSharp"; "Internal::"; "Interop_SspiCli::"; "std::";
           "namespace'::" ]%string.

(** Line 63. *)
Definition skipped_markers : list str :=
  py <$> [ "__fastcall"; "__cdecl"; "__crt"; "stdcall"; "_lambda_";
           "_expandlocale_" ]%string.

(** [any(demangled.startswith(p) for p in (...))] *)
Definition in_skipped_namespace (demangled : str) : bool :=
  existsb (λ p, Str.startswith p demangled) skipped_namespaces.

(** [any(p in demangled for p in (...))] *)
Definition has_skipped_marker (demangled : str) : bool :=
  existsb (λ p, Str.contains p demangled) skipped_markers.

(** The two rejection rules together: the name passes when neither
    rejects it. *)
Definition isApplicationCode (name : str) : bool :=
  negb (in_skipped_namespace name) && negb (has_skipped_marker name).

(** ** The loop over the functions *)

#[global] Instance str_le_dec : RelDecision Str.le :=
  λ a b, decide (Str.leb a b = true).

(** [sorted(callers)]: the ascending rearrangement of a list of [str]. *)
Definition sorted (callers : list str) : list str :=
  merge_sort Str.le callers.

(** The value stored under a name. *)
Record CallRecord := {
  CallCount : nat;
  Usages : list str;
}.

(** Lines 44-50, one turn of the inner loop for the reference from [frm]. *)
Definition visit_xref (E : Engine) (callers : list str) (frm : Z)
  : result (list str) :=
  flags <- get_full_flags E frm;;
  code <- is_code E flags;;
  if code then
    caller_name <- get_func_name E frm;;
    caller_demangled <- demangle_name E caller_name DEMANGLER;;
    if truthy caller_demangled then
      let caller_cleaned := clean_demangled (default [] caller_demangled) in
      Ok (callers ++ [caller_cleaned])
    else Ok callers
  else Ok callers.

(** Lines 43-50, the inner loop over what [XrefsTo] yields. *)
Fixpoint collect_callers (E : Engine) (xrefs : generator Z)
    (callers : list str) : result (list str) :=
  match xrefs with
  | gen_stop => Ok callers
  | gen_raise e => Raise e
  | gen_yield frm rest =>
      callers <- visit_xref E callers frm;;
      collect_callers E rest callers
  end.

(** How one turn of the outer loop ends, when it does not raise. *)
Inductive outcome : Type :=
| Continue
| Assign (demangled : str) (record : CallRecord).

(** Lines 29-69, the body of the [try]. *)
Definition visit_function (E : Engine) (func_ea : Z) : result outcome :=
  flags <- get_full_flags E func_ea;;
  code <- is_code E flags;;
  if negb code then Ok Continue else
  mangled_name <- get_name E func_ea;;
  if negb (truthy mangled_name)
     || Str.contains (py "::") (default [] mangled_name)
  then Ok Continue else
  demangled <- demangle_name E mangled_name DEMANGLER;;
  match demangled with
  | None => Ok Continue
  | Some demangled =>
      let demangled := clean_demangled demangled in
      callers <- collect_callers E (XrefsTo E func_ea 0) [];;
      if in_skipped_namespace demangled then Ok Continue else
      if has_skipped_marker demangled then Ok Continue else
      Ok (Assign demangled {| CallCount := length callers;
                                Usages := sorted callers |})
  end.

(** What the handler prints: the address of the function and the
    exception. *)
Record LogEntry := {
  log_ea : Z;
  log_exn : exn;
}.

Record State := {
  xref_data : gmap str CallRecord;
  printed : list LogEntry;
}.

(** Lines 27-73, one turn of the outer loop with its handler. *)
Definition step (E : Engine) (st : State) (func_ea : Z) : State :=
  match visit_function E func_ea with
  | Ok Continue => st
  | Ok (Assign demangled record) =>
      {| xref_data := <[demangled := record]> (xref_data st);
         printed := printed st |}
  | Raise e =>
      {| xref_data := xref_data st;
         printed := printed st ++ [{| log_ea := func_ea; log_exn := e |}] |}
  end.

(** The whole loop, over what [Functions()] yields. *)
Definition main (E : Engine) (Functions : list Z) : State :=
  foldl (step E) {| xref_data := ∅; printed := [] |} Functions.

(** A reference from [frm] that the inner loop keeps, and the name [c] it
    appends: [frm] is code and the name of its function demangles to a
    non-empty string. *)
Definition qualifying (E : Engine) (frm : Z) (c : str) : Prop :=
  ∃ flags caller_name d,
    get_full_flags E frm = Ok flags
    ∧ is_code E flags = Ok true
    ∧ get_func_name E frm = Ok caller_name
    ∧ demangle_name E caller_name DEMANGLER = Ok (Some d)
    ∧ d ≠ []
    ∧ c = clean_demangled d.

(** The name that the reference from [frm] contributes, when all four
    queries return and the reference is kept. *)
Definition caller_of (E : Engine) (frm : Z) : option str :=
  match get_full_flags E frm with
  | Ok flags =>
      match is_code E flags with
      | Ok true =>
          match get_func_name E frm with
          | Ok caller_name =>
              match demangle_name E caller_name DEMANGLER with
              | Ok (Some (c :: d)) => Some (clean_demangled (c :: d))
              | _ => None
              end
          | _ => None
          end
      | _ => None
      end
  | _ => None
  end.

(** ** A small analysis database to run the loop on *)

Module Demo.

#[local] Open Scope string_scope.
#[local] Open Scope Z_scope.

(** Functions and their raw names. [Game_A] and [Game_A_0] demangle to
    names that differ in the return type only; the name of [Game_D] cannot
    be read. [Game_A] is called from [Game_B] and [System_Foo] and is
    referred to by the data at 0x8000; [Game_B] is called twice from
    [Game_A]; [Game_E] is referred to by the data at 0x8000 and by
    [sub_7000], whose name does not demangle. *)
Definition symbols : list (Z * string) :=
  [ (0x1000, "Game_A"); (0x2000, "Game_B"); (0x3000, "System_Foo");
    (0x4000, "Game_D"); (0x5000, "Game_A_0"); (0x6000, "Game_E");
    (0x7000, "sub_7000") ].

Definition demangled : list (string * string) :=
  [ ("Game_A", "void Game::A(void)"); ("Game_B", "void Game::B(void)");
    ("System_Foo", "void System::Foo(void)");
    ("Game_D", "void Game::D(void)"); ("Game_A_0", "int Game::A(void)");
    ("Game_E", "void Game::E(void)") ].

(** Each function is 0x100 bytes of code. *)
Definition func_at (ea : Z) : option string :=
  snd <$> find (λ f, (f.1 <=? ea) && (ea <? f.1 + 0x100)) symbols.

Definition FF_CODE : Z := 0x600.
Definition FF_DATA : Z := 0x400.

Definition demo : Engine := {|
  get_full_flags ea :=
    Ok (if func_at ea is Some _ then FF_CODE else FF_DATA);
  is_code flags := Ok (Z.land flags 0x600 =? FF_CODE);
  get_name ea :=
    if ea =? 0x4000 then Raise (Exn "RuntimeError" "bad address")
    else Ok (py <$> (snd <$> find (λ f, f.1 =? ea) symbols));
  get_func_name ea := Ok (py <$> func_at ea);
  demangle_name name _ :=
    Ok (name ≫= λ n,
        py <$> (snd <$> find (λ d, bool_decide (py d.1 = n)) demangled));
  XrefsTo ea _ :=
    if ea =? 0x1000
    then gen_yield 0x2010 (gen_yield 0x3010 (gen_yield 0x8000 gen_stop))
    else if ea =? 0x2000
    then gen_yield 0x1010 (gen_yield 0x1020 gen_stop)
    else if ea =? 0x6000
    then gen_yield 0x8000 (gen_yield 0x7010 gen_stop)
    else gen_stop;
|}.

Definition A : str := py "Game::A(void)".
Definition B : str := py "Game::B(void)".
Definition C : str := py "System::Foo(void)".
Definition E : str := py "Game::E(void)".

End Demo.

(** ** What the handler prints, and engines that never raise *)

(** The line printed for [func_ea], if visiting it raises. *)
Definition log_of (E : Engine) (func_ea : Z) : option LogEntry :=
  match visit_function E func_ea with
  | Raise e => Some {| log_ea := func_ea; log_exn := e |}
  | Ok _ => None
  end.

(** The exception a generator ends with, if it does not just stop. *)
Fixpoint gen_raises {A} (g : generator A) : option exn :=
  match g with
  | gen_stop => None
  | gen_yield _ rest => gen_raises rest
  | gen_raise e => Some e
  end.

(** A call that returned. *)
Definition returns {A} (m : result A) : Prop := ∃ a, m = Ok a.

(** An engine none of whose queries raises. *)
Definition quiet (E : Engine) : Prop :=
  (∀ ea, returns (get_full_flags E ea))
  ∧ (∀ flags, returns (is_code E flags))
  ∧ (∀ ea, returns (get_name E ea))
  ∧ (∀ ea, returns (get_func_name E ea))
  ∧ (∀ name abi, returns (demangle_name E name abi))
  ∧ (∀ ea flags, gen_raises (XrefsTo E ea flags) = None).

(** The database of [Demo] with a readable (absent) name at 0x4000: none
    of its queries raises. *)
Definition calm_demo : Engine := {|
  get_full_flags := get_full_flags Demo.demo;
  is_code := is_code Demo.demo;
  get_name ea := if (ea =? 0x4000)%Z then Ok None else get_name Demo.demo ea;
  get_func_name := get_func_name Demo.demo;
  demangle_name := demangle_name Demo.demo;
  XrefsTo := XrefsTo Demo.demo;
|}.

(** The queries the inner loop makes about the reference from [frm] all
    return: its flags and whether they are code and, for a reference from
    code only, the name of its function and what that name demangles to. *)
Definition answered (E : Engine) (frm : Z) : Prop :=
  ∃ flags,
    get_full_flags E frm = Ok flags
    ∧ (is_code E flags = Ok false
       ∨ (is_code E flags = Ok true
          ∧ ∃ caller_name caller_demangled,
              get_func_name E frm = Ok caller_name
              ∧ demangle_name E caller_name DEMANGLER
                = Ok caller_demangled)).

(** A target accepted under the name [k]: the address is code, its raw
    name is not empty and holds no [::], the name demangles, and the
    cleaned name [k] passes both rules. Nothing is said of its callers. *)
Definition accepted (E : Engine) (func_ea : Z) (k : str) : Prop :=
  ∃ flags mangled_name demangled,
    get_full_flags E func_ea = Ok flags
    ∧ is_code E flags = Ok true
    ∧ get_name E func_ea = Ok (Some mangled_name)
    ∧ mangled_name ≠ []
    ∧ Str.contains (py "::") mangled_name = false
    ∧ demangle_name E (Some mangled_name) DEMANGLER = Ok (Some demangled)
    ∧ k = clean_demangled demangled
    ∧ isApplicationCode k = true.

(** The database of [Demo] with a [get_func_name] that raises outside of
    every function. *)
Definition wary_demo : Engine := {|
  get_full_flags := get_full_flags Demo.demo;
  is_code := is_code Demo.demo;
  get_name := get_name Demo.demo;
  get_func_name ea :=
    if Demo.func_at ea is Some _ then get_func_name Demo.demo ea
    else Raise (Exn "ValueError" "no function");
  demangle_name := demangle_name Demo.demo;
  XrefsTo := XrefsTo Demo.demo;
|}.

(** ** Facts about the string primitives *)

Section StrFacts.

Implicit Types (s p sub : str) (c : N) (i : Z).

Lemma startswith_app p s : Str.startswith p (p ++ s) = true.
Proof.
  induction p as [|a p IH]; simpl; [done|].
  by rewrite N.eqb_refl, IH.
Qed.

Lemma startswith_inv p s :
  Str.startswith p s = true → ∃ rest, s = p ++ rest.
Proof.
  revert s; induction p as [|a p IH]; intros s H; simpl in *.
  - by exists s.
  - destruct s as [|b s]; [done|].
    apply andb_true_iff in H as [Hab Hp].
    apply N.eqb_eq in Hab as ->.
    destruct (IH _ Hp) as [rest ->]. by exists rest.
Qed.

Lemma find_from_range sub s i :
  (0 ≤ i)%Z →
  Str.find_from sub s i = (-1)%Z ∨
  (i ≤ Str.find_from sub s i ≤ i + Z.of_nat (length s))%Z.
Proof.
  revert i; induction s as [|x s IH]; intros i Hi; simpl.
  - destruct (Str.startswith sub []); [right; lia | by left].
  - destruct (Str.startswith sub (x :: s)); [right; lia|].
    destruct (IH (i + 1)%Z) as [->|?]; [lia | by left | right; lia].
Qed.

Lemma find_from_none sub s i :
  (0 ≤ i)%Z →
  Str.find_from sub s i = (-1)%Z ↔ Str.contains sub s = false.
Proof.
  revert i; induction s as [|x s IH]; intros i Hi; simpl.
  - rewrite orb_false_r. destruct (Str.startswith sub []); [|done].
    split; [lia | done].
  - destruct (Str.startswith sub (x :: s)); simpl.
    + split; [lia | done].
    + apply IH; lia.
Qed.

Lemma find_none sub s :
  Str.find sub s = (-1)%Z ↔ Str.contains sub s = false.
Proof. by apply find_from_none. Qed.

(** The first [::] of [p ++ "::" ++ rest] is the displayed one exactly
    when no [::] starts inside [p]. *)
Lemma find_from_first_colons p rest i :
  Str.contains (py "::") (p ++ py ":") = false →
  Str.find_from (py "::") (p ++ py "::" ++ rest) i
  = (i + Z.of_nat (length p))%Z.
Proof.
  revert i; induction p as [|x p IH]; intros i H.
  - simpl. lia.
  - cbn [app Str.contains] in H.
    apply orb_false_iff in H as [Hx Hp].
    cbn [app Str.find_from].
    replace (Str.startswith (py "::") (x :: p ++ py "::" ++ rest)) with false.
    { rewrite IH by done. cbn [length]. lia. }
    symmetry. change (py "::") with [58%N; 58%N] in *.
    change (py ":") with [58%N] in *.
    destruct p as [|y p]; simpl in *.
    + by rewrite andb_true_r in *.
    + by rewrite andb_true_r in *.
Qed.

Lemma rfind_from_range sub s i :
  (0 ≤ i)%Z →
  Str.rfind_from sub s i = (-1)%Z ∨
  (i ≤ Str.rfind_from sub s i ≤ i + Z.of_nat (length s))%Z.
Proof.
  revert i; induction s as [|x s IH]; intros i Hi; simpl.
  - destruct (Str.startswith sub []); [right; lia | by left].
  - destruct (IH (i + 1)%Z) as [->|?]; [lia | |].
    + simpl. destruct (Str.startswith sub (x :: s)); [right; lia | by left].
    + destruct (Z.eqb_spec (Str.rfind_from sub s (i + 1)) (-1)); [lia|].
      right; lia.
Qed.

Lemma rfind_from_absent c s i :
  c ∉ s → Str.rfind_from [c] s i = (-1)%Z.
Proof.
  revert i; induction s as [|x s IH]; intros i H; simpl; [done|].
  apply not_elem_of_cons in H as [Hx Hs].
  rewrite IH by done. simpl.
  destruct (N.eqb_spec c x); [congruence | done].
Qed.

Lemma rfind_from_last c a b i :
  (0 ≤ i)%Z → c ∉ b →
  Str.rfind_from [c] (a ++ c :: b) i = (i + Z.of_nat (length a))%Z.
Proof.
  revert i; induction a as [|x a IH]; intros i Hi Hb.
  - cbn [app Str.rfind_from]. rewrite rfind_from_absent by done.
    simpl. rewrite N.eqb_refl. simpl. lia.
  - cbn [app Str.rfind_from]. rewrite IH by (done || lia).
    destruct (Z.eqb_spec (i + 1 + Z.of_nat (length a)) (-1)); [lia|].
    cbn [length]. lia.
Qed.

Lemma bound_nonneg s i :
  (0 ≤ i ≤ Z.of_nat (length s))%Z → Str.bound s i = Z.to_nat i.
Proof.
  intros H. unfold Str.bound.
  destruct (Z.ltb_spec i 0); [lia|]. f_equal. lia.
Qed.

Lemma slice_to_subseteq s i : Str.slice_to s i ⊆ s.
Proof. apply subseteq_take. Qed.

End StrFacts.

(** ** The normaliser *)

Section Normaliser.

Implicit Types (s name : str) (c : N).

Lemma sub_spaces_whitespace_free s : whitespace_free (Re.sub_spaces s).
Proof.
  induction s as [|c s IH]; simpl; [constructor|].
  destruct (Str.isspace c) eqn:E; [done | by constructor].
Qed.

Lemma sub_spaces_fixed s : whitespace_free s → Re.sub_spaces s = s.
Proof.
  induction 1 as [|c s Hc _ IH]; simpl; [done|].
  by rewrite Hc, IH.
Qed.

Lemma whitespace_free_no_space s : whitespace_free s → SPACE ∉ s.
Proof.
  intros H Hin. eapply Forall_forall in H; [|done]. done.
Qed.

Lemma strip_return_type_no_space name :
  SPACE ∉ name → strip_return_type name = name.
Proof.
  intros H. unfold strip_return_type.
  destruct (negb _); [|done].
  unfold Str.rfind. rewrite rfind_from_absent; [done|].
  intros Hin. apply H. by eapply slice_to_subseteq.
Qed.

Lemma replace_length_ge new s :
  2 ≤ length new → length s ≤ length (Str.replace AMP new s).
Proof.
  intros Hn. induction s as [|c s IH]; simpl; [done|].
  destruct (c =? AMP)%N; [rewrite length_app|]; simpl; lia.
Qed.

Lemma replace_fixed_iff s :
  Str.replace AMP (py "[]&") s = s ↔ AMP ∉ s.
Proof.
  induction s as [|c s IH]; simpl.
  - split; [intros _; apply not_elem_of_nil | done].
  - destruct (N.eqb_spec c AMP) as [->|Hne].
    + split; [|intros []; left].
      intros E. apply (f_equal length) in E.
      pose proof (replace_length_ge (py "[]&") s) as Hge.
      simpl in E, Hge. lia.
    + rewrite not_elem_of_cons. split.
      * intros [= E]. split; [done | by apply IH].
      * intros [_ H]. f_equal. by apply IH.
Qed.

Lemma replace_whitespace_free s :
  whitespace_free s → whitespace_free (Str.replace AMP (py "[]&") s).
Proof.
  induction 1 as [|c s Hc _ IH]; simpl; [constructor|].
  destruct (c =? AMP)%N.
  - repeat (constructor; [done|]). done.
  - by constructor.
Qed.

Lemma mark_array_refs_whitespace_free s :
  whitespace_free s → whitespace_free (mark_array_refs s).
Proof.
  intros H. unfold mark_array_refs.
  destruct (Re.search_TryGet_Array s); [by apply replace_whitespace_free | done].
Qed.

(** On a name that is already free of white space only the array rule
    can still act. *)
Lemma clean_demangled_whitespace_free s :
  whitespace_free s → clean_demangled s = mark_array_refs s.
Proof.
  intros H. unfold clean_demangled.
  rewrite strip_return_type_no_space by by apply whitespace_free_no_space.
  by apply sub_spaces_fixed, mark_array_refs_whitespace_free.
Qed.

End Normaliser.

(** C4. The result of the normaliser holds no white-space character. *)
Theorem clean_demangled_no_whitespace (s : str) :
  whitespace_free (clean_demangled s).
Proof. apply sub_spaces_whitespace_free. Qed.

(** C2, as the code has it. Normalising twice gives the result of
    normalising once exactly when the normalised name does not both match
    [TryGet.*Array] and hold a [&]: a second pass over such a name marks
    its references again. *)
Theorem clean_demangled_idempotent_iff (s : str) :
  clean_demangled (clean_demangled s) = clean_demangled s
  ↔ ¬ (Re.search_TryGet_Array (clean_demangled s) = true
       ∧ AMP ∈ clean_demangled s).
Proof.
  rewrite (clean_demangled_whitespace_free (clean_demangled s))
    by apply sub_spaces_whitespace_free.
  unfold mark_array_refs.
  destruct (Re.search_TryGet_Array (clean_demangled s)).
  - rewrite replace_fixed_iff.
    split; [intros H [_ ?]; done | intros H ?; by apply H].
  - split; [intros _ [? _]; done | done].
Qed.

(** C2, counterexample to idempotence for all strings: the array rule
    fires again on its own output. *)
Lemma clean_demangled_not_idempotent :
  ¬ (∀ s : str, clean_demangled (clean_demangled s) = clean_demangled s).
Proof.
  intros H. specialize (H (py "bool NS::TryGetValueArray(int&)")).
  vm_compute in H. discriminate H.
Qed.

Example clean_prefix :
  clean_demangled (py "ReturnType NS::Class::Method(int)")
  = py "NS::Class::Method(int)".
Proof. vm_compute. reflexivity. Qed.

Example clean_array :
  clean_demangled (py "bool NS::TryGetValueArray(int&)")
  = py "NS::TryGetValueArray(int[]&)".
Proof. vm_compute. reflexivity. Qed.

Example clean_twice :
  clean_demangled (clean_demangled (py "bool NS::TryGetValueArray(int&)"))
  = py "NS::TryGetValueArray(int[][]&)".
Proof. vm_compute. reflexivity. Qed.

(** ** Step 1: the return type is cut at the last space *)

Lemma find_from_occurrence (sub p rest : str) (i : Z) :
  (0 ≤ i)%Z →
  (i ≤ Str.find_from sub (p ++ sub ++ rest) i ≤ i + Z.of_nat (length p))%Z.
Proof.
  revert i; induction p as [|x p IH]; intros i Hi.
  - cbn [app]. destruct (sub ++ rest) eqn:E; cbn [Str.find_from];
      rewrite <- E, startswith_app; simpl; lia.
  - cbn [app Str.find_from length].
    destruct (Str.startswith sub (x :: p ++ sub ++ rest)); [lia|].
    specialize (IH (i + 1)%Z). lia.
Qed.

Lemma strip_return_type_cut (a b rest : str) :
  SPACE ∉ b →
  Str.contains (py "::") (a ++ SPACE :: b ++ py ":") = false →
  strip_return_type (a ++ SPACE :: b ++ py "::" ++ rest) = b ++ py "::" ++ rest.
Proof.
  intros Hb Hfirst. unfold strip_return_type, Str.find.
  replace (a ++ SPACE :: b ++ py "::" ++ rest)
    with ((a ++ SPACE :: b) ++ py "::" ++ rest) by by rewrite <- app_assoc.
  rewrite find_from_first_colons by by rewrite <- app_assoc.
  set (p := a ++ SPACE :: b).
  assert (Hlen : (0 + Z.of_nat (length p) ≠ -1)%Z) by lia.
  apply Z.eqb_neq in Hlen. rewrite Hlen. cbn [negb].
  unfold Str.slice_to. rewrite bound_nonneg
    by (rewrite length_app; lia).
  replace (Z.to_nat (0 + Z.of_nat (length p))) with (length p) by lia.
  rewrite take_app_length. subst p.
  unfold Str.rfind. rewrite rfind_from_last by done.
  assert (Hj : (0 + Z.of_nat (length a) ≠ -1)%Z) by lia.
  apply Z.eqb_neq in Hj. rewrite Hj. cbn [negb].
  unfold Str.slice_from. rewrite bound_nonneg
    by (rewrite !length_app; cbn [length]; lia).
  replace (Z.to_nat (0 + Z.of_nat (length a) + 1)) with (S (length a)) by lia.
  rewrite <- app_assoc. cbn [app].
  change (a ++ SPACE :: b ++ py "::" ++ rest)
    with (a ++ [SPACE] ++ b ++ py "::" ++ rest).
  rewrite app_assoc.
  replace (S (length a)) with (length (a ++ [SPACE]))
    by (rewrite length_app; simpl; lia).
  by rewrite drop_app_length.
Qed.

Lemma strip_return_type_keep (p rest : str) :
  SPACE ∉ p → strip_return_type (p ++ py "::" ++ rest) = p ++ py "::" ++ rest.
Proof.
  intros Hp. unfold strip_return_type, Str.find.
  destruct (negb _); [|done].
  pose proof (find_from_occurrence (py "::") p rest 0 ltac:(lia)) as Hi.
  unfold Str.slice_to. rewrite bound_nonneg
    by (rewrite length_app; lia).
  rewrite take_app_le by lia.
  unfold Str.rfind. rewrite rfind_from_absent; [done|].
  intros Hin. apply Hp. by eapply subseteq_take.
Qed.

Lemma strip_return_type_unqualified (name : str) :
  Str.contains (py "::") name = false → strip_return_type name = name.
Proof.
  intros H. unfold strip_return_type.
  apply find_none in H. by rewrite H.
Qed.

(** C3, as the code has it. The cut is made at the last space character
    (U+0020) of the text in front of the first [::]: that space and all
    before it are dropped; with no space there, or no [::] at all, the name
    is kept as it is. *)
Theorem strip_return_type_last_space (name : str) :
  (∀ a b rest,
     name = a ++ SPACE :: b ++ py "::" ++ rest →
     SPACE ∉ b →
     Str.contains (py "::") (a ++ SPACE :: b ++ py ":") = false →
     strip_return_type name = b ++ py "::" ++ rest)
  ∧ (∀ p rest,
     name = p ++ py "::" ++ rest → SPACE ∉ p → strip_return_type name = name)
  ∧ (Str.contains (py "::") name = false → strip_return_type name = name)
  ∧ clean_demangled (py "ReturnType NS::Class::Method(int)")
    = py "NS::Class::Method(int)".
Proof.
  split_and!.
  - intros a b rest -> Hb Hfirst. by apply strip_return_type_cut.
  - intros p rest -> Hp. by apply strip_return_type_keep.
  - apply strip_return_type_unqualified.
  - vm_compute. reflexivity.
Qed.

Lemma strip_return_type_last_space_witness :
  strip_return_type (py "unsigned int NS::Class::Method(int)")
  = py "NS::Class::Method(int)".
Proof.
  change (py "NS::Class::Method(int)")
    with (py "NS" ++ py "::" ++ py "Class::Method(int)").
  apply (proj1 (strip_return_type_last_space
                  (py "unsigned int NS::Class::Method(int)"))
           (py "unsigned int") (py "NS") (py "Class::Method(int)")).
  - vm_compute. reflexivity.
  - apply (bool_decide_unpack (SPACE ∉ py "NS")). vm_compute. exact I.
  - vm_compute. reflexivity.
Defined.

(** C3, counterexample to the cut at the last white-space character: in
    [a b<TAB>c::d] the last white space of the prefix is the tab, and the
    code cuts after the space in front of [b]. *)
Lemma strip_return_type_not_last_whitespace :
  ¬ (∀ name : str,
       Str.contains (py "::") name = true →
       strip_return_type name = Spec.truncate_at_last_whitespace name).
Proof.
  intros H. specialize (H (py "a b" ++ [9%N] ++ py "c::d") eq_refl).
  vm_compute in H. discriminate H.
Qed.

Example strip_tab :
  strip_return_type (py "a b" ++ [9%N] ++ py "c::d") = py "b" ++ [9%N] ++ py "c::d"
  ∧ Spec.truncate_at_last_whitespace (py "a b" ++ [9%N] ++ py "c::d") = py "c::d"
  ∧ clean_demangled (py "a b" ++ [9%N] ++ py "c::d") = py "bc::d".
Proof. vm_compute. done. Qed.

(** ** Step 2: the array rule *)

Lemma strip_app (p rest : str) : Re.strip p (p ++ rest) = Some rest.
Proof. induction p as [|a p IH]; simpl; [done|]. by rewrite N.eqb_refl. Qed.

Lemma strip_inv (p s rest : str) : Re.strip p s = Some rest → s = p ++ rest.
Proof.
  revert s; induction p as [|a p IH]; intros s H; simpl in *.
  - by injection H as ->.
  - destruct s as [|b s]; [done|].
    destruct (N.eqb_spec a b) as [->|]; [|done].
    by rewrite (IH _ H).
Qed.

Lemma dotstar_then_app (lit b c : str) :
  Re.NEWLINE ∉ b → Re.dotstar_then lit (b ++ lit ++ c) = true.
Proof.
  induction b as [|x b IH]; intros Hb.
  - cbn [app]. destruct (lit ++ c) eqn:E; cbn [Re.dotstar_then];
      by rewrite <- E, startswith_app.
  - apply not_elem_of_cons in Hb as [Hx Hb].
    cbn [app Re.dotstar_then].
    destruct (N.eqb_spec x Re.NEWLINE); [congruence|].
    rewrite IH by done. apply orb_true_r.
Qed.

Lemma dotstar_then_inv (lit s : str) :
  Re.dotstar_then lit s = true →
  ∃ b c, s = b ++ lit ++ c ∧ Re.NEWLINE ∉ b.
Proof.
  induction s as [|x s IH]; cbn [Re.dotstar_then]; intros H.
  - rewrite orb_false_r in H. apply startswith_inv in H as [c ->].
    exists [], c. split; [done | apply not_elem_of_nil].
  - apply orb_true_iff in H as [H|H].
    + apply startswith_inv in H as [c ->].
      exists [], c. split; [done | apply not_elem_of_nil].
    + destruct (N.eqb_spec x Re.NEWLINE) as [|Hx]; [done|].
      destruct (IH H) as (b & c & -> & Hb).
      exists (x :: b), c. split; [done|].
      apply not_elem_of_cons. split; [congruence | done].
Qed.

Lemma search_TryGet_Array_iff (s : str) :
  Re.search_TryGet_Array s = true ↔ Spec.TryGet_then_Array_on_a_line s.
Proof.
  split.
  - induction s as [|x s IH]; cbn [Re.search_TryGet_Array]; intros H.
    + by vm_compute in H.
    + apply orb_true_iff in H as [H|H].
      * destruct (Re.strip (py "TryGet") (x :: s)) as [r|] eqn:E; [|done].
        apply strip_inv in E as ->.
        apply dotstar_then_inv in H as (b & c & -> & Hb).
        by exists [], b, c.
      * destruct (IH H) as (a & b & c & -> & Hb).
        by exists (x :: a), b, c.
  - intros (a & b & c & -> & Hb).
    induction a as [|x a IH].
    + cbn [app].
      destruct (py "TryGet" ++ b ++ py "Array" ++ c) eqn:E;
        cbn [Re.search_TryGet_Array]; rewrite <- E, strip_app,
        dotstar_then_app by done; done.
    + cbn [app Re.search_TryGet_Array]. rewrite IH. apply orb_true_r.
Qed.

(** C7, as the code has it. When the name left by step 1 holds [TryGet]
    and, later with no newline in between, [Array], every [&] becomes
    [[]&] before the white space is removed; otherwise the [&] are left
    alone. *)
Theorem mark_array_refs_on_a_line (name : str) :
  (Spec.TryGet_then_Array_on_a_line (strip_return_type name) →
   clean_demangled name
   = Re.sub_spaces (Str.replace AMP (py "[]&") (strip_return_type name)))
  ∧ (¬ Spec.TryGet_then_Array_on_a_line (strip_return_type name) →
     clean_demangled name = Re.sub_spaces (strip_return_type name))
  ∧ clean_demangled (py "bool NS::TryGetValueArray(int&)")
    = py "NS::TryGetValueArray(int[]&)".
Proof.
  unfold clean_demangled, mark_array_refs. split_and!.
  - intros H. apply search_TryGet_Array_iff in H. by rewrite H.
  - intros H. rewrite <- search_TryGet_Array_iff in H.
    by destruct (Re.search_TryGet_Array _).
  - vm_compute. reflexivity.
Qed.

Lemma mark_array_refs_on_a_line_witness :
  clean_demangled (py "bool NS::TryGetValueArray(int&)")
  = Re.sub_spaces (Str.replace AMP (py "[]&")
                     (strip_return_type (py "bool NS::TryGetValueArray(int&)"))).
Proof.
  apply (proj1 (mark_array_refs_on_a_line (py "bool NS::TryGetValueArray(int&)"))).
  exists (py "NS::"), (py "Value"), (py "(int&)"). split.
  - vm_compute. reflexivity.
  - apply (bool_decide_unpack (Re.NEWLINE ∉ py "Value")). vm_compute. exact I.
Defined.

(** C7, counterexample to the rule for every name that holds [TryGet]
    and later [Array]: with a newline between them the pattern does not
    match, and the [&] stays. *)
Lemma mark_array_refs_not_across_lines :
  ¬ (∀ name : str,
       Spec.TryGet_then_Array (strip_return_type name) →
       clean_demangled name
       = Re.sub_spaces (Str.replace AMP (py "[]&") (strip_return_type name))).
Proof.
  intros H.
  specialize (H (py "TryGet" ++ [Re.NEWLINE] ++ py "Array(int&)")).
  assert (Hc : Spec.TryGet_then_Array
                 (strip_return_type
                    (py "TryGet" ++ [Re.NEWLINE] ++ py "Array(int&)"))).
  { by exists [], [Re.NEWLINE], (py "(int&)"). }
  specialize (H Hc). vm_compute in H. discriminate H.
Qed.

Example clean_across_lines :
  clean_demangled (py "TryGet" ++ [Re.NEWLINE] ++ py "Array(int&)")
  = py "TryGetArray(int&)".
Proof. vm_compute. reflexivity. Qed.

(** ** The order of [sorted] *)

Lemma leb_total (a b : str) : Str.leb a b = true ∨ Str.leb b a = true.
Proof.
  revert b; induction a as [|x a IH]; intros [|y b]; simpl; auto.
  destruct (N.ltb_spec x y), (N.ltb_spec y x); auto; try lia.
  assert (x = y) as -> by lia. rewrite N.eqb_refl. apply IH.
Qed.

Lemma leb_trans (a b c : str) :
  Str.leb a b = true → Str.leb b c = true → Str.leb a c = true.
Proof.
  revert b c; induction a as [|x a IH]; intros [|y b] [|z c]; simpl; try done.
  destruct (N.ltb_spec x y), (N.ltb_spec y z), (N.ltb_spec x z),
    (N.eqb_spec x y), (N.eqb_spec y z), (N.eqb_spec x z);
    try done; try lia; eauto.
Qed.

Lemma leb_antisym (a b : str) :
  Str.leb a b = true → Str.leb b a = true → a = b.
Proof.
  revert b; induction a as [|x a IH]; intros [|y b]; simpl; try done.
  destruct (N.ltb_spec x y), (N.ltb_spec y x),
    (N.eqb_spec x y), (N.eqb_spec y x); try done; try lia.
  intros Hab Hba. subst. f_equal. by apply IH.
Qed.

#[global] Instance str_le_total : Total Str.le.
Proof. intros a b. apply leb_total. Qed.

#[global] Instance str_le_trans : Transitive Str.le.
Proof. intros a b c. apply leb_trans. Qed.

#[global] Instance str_le_antisym : AntiSymm (=) Str.le.
Proof. intros a b. apply leb_antisym. Qed.

Lemma sorted_Sorted (l : list str) : Sorted Str.le (sorted l).
Proof. apply Sorted_merge_sort, _. Qed.

Lemma sorted_Permutation (l : list str) : sorted l ≡ₚ l.
Proof. apply merge_sort_Permutation. Qed.

Lemma sorted_length (l : list str) : length (sorted l) = length l.
Proof. apply Permutation_length, sorted_Permutation. Qed.

(** The ascending rearrangement of a list is unique, so [sorted] does not
    depend on the algorithm that computes it. *)
Lemma sorted_unique (l l' : list str) :
  Sorted Str.le l' → l' ≡ₚ l → l' = sorted l.
Proof.
  intros Hs Hp. apply (Sorted_unique Str.le); [done | apply sorted_Sorted |].
  by rewrite sorted_Permutation.
Qed.

(** ** The inner loop *)

Lemma caller_of_qualifying (E : Engine) (frm : Z) (c : str) :
  caller_of E frm = Some c ↔ qualifying E frm c.
Proof.
  unfold caller_of, qualifying. split.
  - destruct (get_full_flags E frm) as [flags|] eqn:Hf; [|done].
    destruct (is_code E flags) as [[]|] eqn:Hc; [|done..].
    destruct (get_func_name E frm) as [n|] eqn:Hn; [|done].
    destruct (demangle_name E n DEMANGLER) as [[[|x d]|]|] eqn:Hd; [done| |done..].
    intros [= <-]. by exists flags, n, (x :: d).
  - intros (flags & n & d & -> & -> & -> & -> & Hne & ->).
    by destruct d.
Qed.

Lemma visit_xref_caller_of (E : Engine) (callers out : list str) (frm : Z) :
  visit_xref E callers frm = Ok out →
  out = callers ++ option_list (caller_of E frm).
Proof.
  unfold visit_xref, caller_of, bind.
  destruct (get_full_flags E frm) as [flags|]; [|done].
  destruct (is_code E flags) as [[]|]; [| |done].
  - destruct (get_func_name E frm) as [n|]; [|done].
    destruct (demangle_name E n DEMANGLER) as [[[|x d]|]|]; simpl;
      intros [= <-]; by rewrite ?app_nil_r.
  - intros [= <-]. by rewrite app_nil_r.
Qed.

Lemma collect_callers_caller_of (E : Engine) (xrefs : generator Z)
    (callers out : list str) :
  collect_callers E xrefs callers = Ok out →
  out = callers ++ omap (caller_of E) (gen_items xrefs).
Proof.
  revert callers; induction xrefs as [|frm rest IH|e]; intros callers; simpl.
  - intros [= <-]. by rewrite app_nil_r.
  - unfold bind at 1.
    destruct (visit_xref E callers frm) as [mid|] eqn:Hv; [|done].
    intros H. apply IH in H as ->.
    apply visit_xref_caller_of in Hv as ->.
    rewrite <- app_assoc. f_equal.
    by destruct (caller_of E frm).
  - done.
Qed.

(** ** The body of the loop *)

Lemma visit_function_assign (E : Engine) (func_ea : Z) (k : str)
    (r : CallRecord) :
  visit_function E func_ea = Ok (Assign k r) →
  ∃ callers,
    collect_callers E (XrefsTo E func_ea 0) [] = Ok callers
    ∧ isApplicationCode k = true
    ∧ r = {| CallCount := length callers; Usages := sorted callers |}.
Proof.
  unfold visit_function, bind.
  destruct (get_full_flags E func_ea) as [flags|]; [|done].
  destruct (is_code E flags) as [[]|]; simpl; [|done..].
  destruct (get_name E func_ea) as [mangled|]; [|done].
  destruct (_ || _); [done|].
  destruct (demangle_name E mangled DEMANGLER) as [[d|]|]; [|done..].
  destruct (collect_callers E _ []) as [callers|]; [|done].
  unfold isApplicationCode.
  destruct (in_skipped_namespace _) eqn:Hn; [done|].
  destruct (has_skipped_marker _) eqn:Hm; [done|].
  intros [= <- <-]. exists callers. by rewrite Hn, Hm.
Qed.

(** ** The loop *)

Lemma main_snoc (E : Engine) (fs : list Z) (func_ea : Z) :
  main E (fs ++ [func_ea]) = step E (main E fs) func_ea.
Proof. unfold main. by rewrite foldl_snoc. Qed.

Lemma main_lookup_inv (E : Engine) (fs : list Z) (k : str) (r : CallRecord) :
  xref_data (main E fs) !! k = Some r →
  ∃ func_ea, func_ea ∈ fs ∧ visit_function E func_ea = Ok (Assign k r).
Proof.
  induction fs as [|f fs IH] using rev_ind.
  - unfold main. simpl. by rewrite lookup_empty.
  - rewrite main_snoc. unfold step.
    destruct (visit_function E f) as [[|k' r']|e] eqn:Hv; simpl.
    + intros H. destruct (IH H) as (g & Hg & Hr).
      exists g. split; [|done]. apply elem_of_app. by left.
    + rewrite lookup_insert. case_decide as Hk.
      * intros [= <-]. subst k'. exists f. split; [|done].
        apply elem_of_app. right. by apply list_elem_of_singleton.
      * intros H. destruct (IH H) as (g & Hg & Hr).
        exists g. split; [|done]. apply elem_of_app. by left.
    + intros H. destruct (IH H) as (g & Hg & Hr).
      exists g. split; [|done]. apply elem_of_app. by left.
Qed.

Lemma main_app (E : Engine) (fs1 fs2 : list Z) (func_ea : Z) :
  main E (fs1 ++ func_ea :: fs2)
  = foldl (step E) (step E (main E fs1) func_ea) fs2.
Proof. unfold main. by rewrite foldl_app. Qed.

Lemma step_keeps_key (E : Engine) (st : State) (f : Z) (k : str) :
  is_Some (xref_data st !! k) → is_Some (xref_data (step E st f) !! k).
Proof.
  intros H. unfold step.
  destruct (visit_function E f) as [[|k' r']|e]; simpl; [done| |done].
  rewrite lookup_insert. by case_decide.
Qed.

Lemma foldl_step_keeps_key (E : Engine) (fs : list Z) (st : State) (k : str) :
  is_Some (xref_data st !! k) →
  is_Some (xref_data (foldl (step E) st fs) !! k).
Proof.
  revert st; induction fs as [|f fs IH]; intros st H; simpl; [done|].
  by apply IH, step_keeps_key.
Qed.

Lemma foldl_step_keeps_printed (E : Engine) (fs : list Z) (st : State)
    (x : LogEntry) :
  x ∈ printed st → x ∈ printed (foldl (step E) st fs).
Proof.
  revert st; induction fs as [|f fs IH]; intros st H; simpl; [done|].
  apply IH. unfold step.
  destruct (visit_function E f) as [[|k' r']|e]; simpl; [done..|].
  apply elem_of_app. by left.
Qed.

Lemma foldl_step_xref_data (E : Engine) (fs : list Z) (st st' : State) :
  xref_data st = xref_data st' →
  xref_data (foldl (step E) st fs) = xref_data (foldl (step E) st' fs).
Proof.
  revert st st'; induction fs as [|f fs IH]; intros st st' H; simpl; [done|].
  apply IH. unfold step.
  destruct (visit_function E f) as [[|k' r']|e]; simpl; by rewrite ?H.
Qed.

Lemma foldl_step_lookup_stable (E : Engine) (fs : list Z) (st : State)
    (k : str) :
  (∀ f r', f ∈ fs → visit_function E f ≠ Ok (Assign k r')) →
  xref_data (foldl (step E) st fs) !! k = xref_data st !! k.
Proof.
  revert st; induction fs as [|f fs IH]; intros st H; simpl; [done|].
  rewrite IH by (intros g r' Hg; apply H; by right).
  unfold step.
  destruct (visit_function E f) as [[|k' r']|e] eqn:Hv; simpl; [done| |done].
  apply lookup_insert_ne. intros ->. by apply (H f r'); [left|].
Qed.

Lemma main_assigned (E : Engine) (fs : list Z) (func_ea : Z) (k : str)
    (r : CallRecord) :
  func_ea ∈ fs → visit_function E func_ea = Ok (Assign k r) →
  is_Some (xref_data (main E fs) !! k).
Proof.
  intros Hin Hv. apply list_elem_of_split in Hin as (fs1 & fs2 & ->).
  rewrite main_app. apply foldl_step_keeps_key.
  unfold step. rewrite Hv. simpl. rewrite lookup_insert_eq. by eexists.
Qed.

(** ** The records of the final [xref_data] *)




(** C5. In every record of the final [xref_data] the count is the length
    of the list of callers. *)
Theorem call_count_is_length (E : Engine) (Functions : list Z) (k : str)
    (r : CallRecord) :
  xref_data (main E Functions) !! k = Some r →
  CallCount r = length (Usages r).
Proof.
  intros H.
  apply main_lookup_inv in H as (f & Hf & Hv).
  apply visit_function_assign in Hv as (callers & Hc & Hk & ->).
  simpl. by rewrite sorted_length.
Qed.

Lemma call_count_is_length_witness :
  CallCount {| CallCount := 2; Usages := [Demo.A; Demo.A] |}
  = length (Usages {| CallCount := 2; Usages := [Demo.A; Demo.A] |}).
Proof.
  apply (call_count_is_length Demo.demo [0x1000; 0x2000; 0x3000]%Z Demo.B).
  vm_compute. reflexivity.
Defined.

(** C6. In every record of the final [xref_data] the callers are in
    non-decreasing lexicographic order, and they are a rearrangement of
    the names the inner loop collected for one of the functions: a name
    collected twice is listed twice. *)
Theorem usages_sorted_keep_duplicates (E : Engine) (Functions : list Z)
    (k : str) (r : CallRecord) :
  xref_data (main E Functions) !! k = Some r →
  Sorted Str.le (Usages r)
  ∧ ∃ func_ea,
      func_ea ∈ Functions
      ∧ Usages r ≡ₚ omap (caller_of E) (gen_items (XrefsTo E func_ea 0)).
Proof.
  intros H.
  apply main_lookup_inv in H as (f & Hf & Hv).
  apply visit_function_assign in Hv as (callers & Hc & Hk & ->).
  simpl. split; [apply sorted_Sorted|].
  exists f. split; [done|].
  rewrite sorted_Permutation.
  by apply collect_callers_caller_of in Hc as ->.
Qed.

Lemma usages_sorted_keep_duplicates_witness :
  Sorted Str.le [Demo.A; Demo.A]
  ∧ ∃ func_ea,
      func_ea ∈ [0x1000; 0x2000; 0x3000]%Z
      ∧ [Demo.A; Demo.A]
        ≡ₚ omap (caller_of Demo.demo) (gen_items (XrefsTo Demo.demo func_ea 0)).
Proof.
  apply (usages_sorted_keep_duplicates Demo.demo [0x1000; 0x2000; 0x3000]%Z
           Demo.B {| CallCount := 2; Usages := [Demo.A; Demo.A] |}).
  vm_compute. reflexivity.
Defined.

(** ** Exceptions in the body of the loop *)

(** C8. An exception raised while one function is visited is caught: it is
    printed with the address of that function, the loop goes on with the
    functions that follow, and the final [xref_data] is the one of the run
    without that function, so every other function that was assigned
    still has its key. *)
Theorem failure_isolation (E : Engine) (before after : list Z) (func_ea : Z)
    (e : exn) :
  visit_function E func_ea = Raise e →
  let final := main E (before ++ func_ea :: after) in
  {| log_ea := func_ea; log_exn := e |} ∈ printed final
  ∧ final
    = foldl (step E)
        {| xref_data := xref_data (main E before);
           printed := printed (main E before)
                      ++ [{| log_ea := func_ea; log_exn := e |}] |}
        after
  ∧ xref_data final = xref_data (main E (before ++ after))
  ∧ ∀ f k r,
      f ∈ before ++ after →
      visit_function E f = Ok (Assign k r) →
      is_Some (xref_data final !! k).
Proof.
  intros Hv final.
  assert (Hfinal : final
    = foldl (step E)
        {| xref_data := xref_data (main E before);
           printed := printed (main E before)
                      ++ [{| log_ea := func_ea; log_exn := e |}] |}
        after).
  { unfold final. rewrite main_app. unfold step at 2. by rewrite Hv. }
  assert (Hdata : xref_data final = xref_data (main E (before ++ after))).
  { rewrite Hfinal. unfold main at 3. rewrite foldl_app.
    by apply foldl_step_xref_data. }
  split_and!; [|done|done|].
  - rewrite Hfinal. apply foldl_step_keeps_printed. simpl.
    apply elem_of_app. right. by apply list_elem_of_singleton.
  - intros f k r Hf Hr. rewrite Hdata. by eapply main_assigned.
Qed.

Lemma failure_isolation_witness :
  let final := main Demo.demo ([0x1000] ++ 0x4000 :: [0x2000; 0x3000])%Z in
  {| log_ea := 0x4000; log_exn := Exn "RuntimeError" "bad address" |}
    ∈ printed final
  ∧ final
    = foldl (step Demo.demo)
        {| xref_data := xref_data (main Demo.demo [0x1000]%Z);
           printed := printed (main Demo.demo [0x1000]%Z)
                      ++ [{| log_ea := 0x4000;
                             log_exn := Exn "RuntimeError" "bad address" |}] |}
        [0x2000; 0x3000]%Z
  ∧ xref_data final
    = xref_data (main Demo.demo ([0x1000] ++ [0x2000; 0x3000])%Z)
  ∧ ∀ f k r,
      f ∈ ([0x1000] ++ [0x2000; 0x3000])%Z →
      visit_function Demo.demo f = Ok (Assign k r) →
      is_Some (xref_data final !! k).
Proof.
  apply (failure_isolation Demo.demo [0x1000]%Z [0x2000; 0x3000]%Z 0x4000%Z
           (Exn "RuntimeError" "bad address")).
  vm_compute. reflexivity.
Defined.

Example isolated_run :
  let final := main Demo.demo [0x1000; 0x4000; 0x2000; 0x3000]%Z in
  printed final
  = [{| log_ea := 0x4000; log_exn := Exn "RuntimeError" "bad address" |}]
  ∧ xref_data final !! Demo.A
    = Some {| CallCount := 2; Usages := [Demo.B; Demo.C] |}
  ∧ xref_data final !! Demo.B
    = Some {| CallCount := 2; Usages := [Demo.A; Demo.A] |}
  ∧ xref_data final !! Demo.C = None.
Proof. vm_compute. done. Qed.

(** ** More on the normaliser *)

Lemma contains_app (sub a b : str) : Str.contains sub (a ++ sub ++ b) = true.
Proof.
  induction a as [|x a IH]; simpl.
  - destruct (sub ++ b) eqn:E; simpl; by rewrite <- E, startswith_app.
  - rewrite IH. apply orb_true_r.
Qed.

Lemma contains_inv (sub s : str) :
  Str.contains sub s = true → ∃ a b, s = a ++ sub ++ b.
Proof.
  induction s as [|x s IH]; simpl; intros H.
  - rewrite orb_false_r in H.
    apply startswith_inv in H as [rest ->]. by exists [], rest.
  - apply orb_true_iff in H as [H|H].
    + apply startswith_inv in H as [rest ->]. by exists [], rest.
    + destruct (IH H) as (a & b & ->). by exists (x :: a), b.
Qed.

(** A name that holds [::] splits at the first one. *)
Lemma first_colons_split (name : str) :
  Str.contains (py "::") name = true →
  ∃ p rest,
    name = p ++ py "::" ++ rest
    ∧ Str.contains (py "::") (p ++ py ":") = false.
Proof.
  induction name as [|x name IH]; [done|].
  cbn [Str.contains]. intros H.
  destruct (Str.startswith (py "::") (x :: name)) eqn:Hhead.
  - apply startswith_inv in Hhead as [rest ->]. by exists [], rest.
  - simpl in H. destruct (IH H) as (p & rest & -> & Hp).
    exists (x :: p), rest. split; [done|].
    cbn [app Str.contains]. rewrite Hp, orb_false_r.
    change (py "::") with [58; 58]%N in *. change (py ":") with [58%N] in *.
    destruct p as [|y p]; cbn [app Str.startswith] in *.
    + rewrite N.eqb_refl in Hhead. simpl in Hhead.
      by rewrite andb_true_r in *.
    + by rewrite andb_true_r in *.
Qed.

Lemma contains_prefix_false (sub a b : str) :
  Str.contains sub (a ++ b) = false → Str.contains sub b = false.
Proof.
  induction a as [|x a IH]; [done|].
  cbn [app Str.contains]. intros H.
  apply orb_false_iff in H as [_ H]. by apply IH.
Qed.

(** X1. The shape of a qualified name after step 1. The name is
    [cut ++ p ++ "::" ++ rest] where the [::] shown is its first one (none
    starts inside [cut ++ p]); the result is [p ++ "::" ++ rest], so the
    text from the first [::] on is kept; [p] holds no space; and what is
    cut is nothing or ends in a space. *)
Theorem strip_return_type_qualified (name : str) :
  Str.contains (py "::") name = true →
  ∃ cut p rest,
    name = cut ++ p ++ py "::" ++ rest
    ∧ strip_return_type name = p ++ py "::" ++ rest
    ∧ (SPACE ∉ p)
    ∧ Str.contains (py "::") (cut ++ p ++ py ":") = false
    ∧ Str.contains (py "::") (p ++ py ":") = false
    ∧ ((cut = []) ∨ (∃ a, cut = a ++ [SPACE])).
Proof.
  intros H. destruct (first_colons_split name H) as (q & rest & -> & Hq).
  destruct (decide (SPACE ∈ q)) as [Hin|Hout].
  - apply list_elem_of_split_r in Hin as (a & b & -> & Hb).
    exists (a ++ [SPACE]), b, rest.
    rewrite <- !app_assoc in *. cbn [app] in *.
    split_and!; [done| |done|done| |right; by exists a].
    + by apply strip_return_type_cut.
    + apply (contains_prefix_false _ (a ++ [SPACE])).
      by rewrite <- app_assoc.
  - exists [], q, rest. split_and!; [done| |done|done|done|by left].
    by apply strip_return_type_keep.
Qed.

Lemma strip_return_type_qualified_witness :
  ∃ cut p rest,
    py "unsigned int NS::Class::Method(int)" = cut ++ p ++ py "::" ++ rest
    ∧ strip_return_type (py "unsigned int NS::Class::Method(int)")
      = p ++ py "::" ++ rest
    ∧ (SPACE ∉ p)
    ∧ Str.contains (py "::") (cut ++ p ++ py ":") = false
    ∧ Str.contains (py "::") (p ++ py ":") = false
    ∧ ((cut = []) ∨ (∃ a, cut = a ++ [SPACE])).
Proof.
  apply (strip_return_type_qualified (py "unsigned int NS::Class::Method(int)")).
  vm_compute. reflexivity.
Defined.

Example strip_after_first_colons :
  strip_return_type (py "x::y z::w") = py "x::y z::w".
Proof. vm_compute. reflexivity. Qed.

Lemma strip_return_type_leaves_no_space (name : str) :
  Str.contains (py "::") name = true →
  ∃ p rest, strip_return_type name = p ++ py "::" ++ rest ∧ SPACE ∉ p.
Proof.
  intros H. destruct (first_colons_split name H) as (q & rest & -> & Hq).
  destruct (decide (SPACE ∈ q)) as [Hin|Hout].
  - apply list_elem_of_split_r in Hin as (a & b & -> & Hb).
    exists b, rest. split; [|done].
    rewrite <- !app_assoc in *. cbn [app] in *.
    by apply strip_return_type_cut.
  - exists q, rest. split; [|done]. by apply strip_return_type_keep.
Qed.

(** X2. Step 1 is idempotent: a second cut finds no space to cut at. *)
Theorem strip_return_type_idempotent (name : str) :
  strip_return_type (strip_return_type name) = strip_return_type name.
Proof.
  destruct (Str.contains (py "::") name) eqn:H.
  - destruct (strip_return_type_leaves_no_space name H)
      as (p & rest & -> & Hp).
    by apply strip_return_type_keep.
  - by rewrite !(strip_return_type_unqualified name H).
Qed.

(** X3. The names the normaliser leaves as they are: those free of white
    space on which the array rule has nothing to mark. *)
Theorem clean_demangled_fixed_iff (s : str) :
  clean_demangled s = s
  ↔ whitespace_free s
    ∧ ¬ (Re.search_TryGet_Array s = true ∧ AMP ∈ s).
Proof.
  split.
  - intros H.
    assert (Hw : whitespace_free s).
    { rewrite <- H. apply sub_spaces_whitespace_free. }
    split; [done|].
    rewrite (clean_demangled_whitespace_free s Hw) in H.
    unfold mark_array_refs in H. intros [Hm Hamp].
    rewrite Hm in H. by apply replace_fixed_iff in H.
  - intros [Hw Hn].
    rewrite (clean_demangled_whitespace_free s Hw). unfold mark_array_refs.
    destruct (Re.search_TryGet_Array s) eqn:Hm; [|done].
    apply replace_fixed_iff. intros Hamp. by apply Hn.
Qed.

Lemma replace_app (old : N) (new a b : str) :
  Str.replace old new (a ++ b)
  = Str.replace old new a ++ Str.replace old new b.
Proof.
  induction a as [|x a IH]; simpl; [done|].
  destruct (x =? old)%N; by rewrite IH, ?app_assoc.
Qed.

Lemma sub_spaces_app (a b : str) :
  Re.sub_spaces (a ++ b) = Re.sub_spaces a ++ Re.sub_spaces b.
Proof.
  induction a as [|x a IH]; simpl; [done|].
  destruct (Str.isspace x); by rewrite IH.
Qed.

(** X4. A qualified name stays qualified: the [::] that step 1 looked for is
    still in the result. *)
Theorem clean_demangled_keeps_colons (name : str) :
  Str.contains (py "::") name = true →
  Str.contains (py "::") (clean_demangled name) = true.
Proof.
  intros H.
  destruct (strip_return_type_leaves_no_space name H) as (p & rest & Hs & _).
  unfold clean_demangled, mark_array_refs. rewrite Hs.
  destruct (Re.search_TryGet_Array _).
  - rewrite !replace_app, !sub_spaces_app.
    change (Re.sub_spaces (Str.replace AMP (py "[]&") (py "::"))) with (py "::").
    apply contains_app.
  - rewrite !sub_spaces_app.
    change (Re.sub_spaces (py "::")) with (py "::").
    apply contains_app.
Qed.

Lemma clean_demangled_keeps_colons_witness :
  Str.contains (py "::")
    (clean_demangled (py "bool NS::TryGetValueArray(int&)")) = true.
Proof.
  apply (clean_demangled_keeps_colons (py "bool NS::TryGetValueArray(int&)")).
  vm_compute. reflexivity.
Defined.

Lemma strip_return_type_suffix (name : str) :
  strip_return_type name `suffix_of` name.
Proof.
  unfold strip_return_type, Str.slice_from.
  destruct (negb _); [|done].
  destruct (negb _); [|done].
  apply suffix_drop.
Qed.

Lemma sub_spaces_sublist (s : str) : Re.sub_spaces s `sublist_of` s.
Proof.
  induction s as [|x s IH]; simpl; [done|].
  destruct (Str.isspace x); by constructor.
Qed.

(** X5. Apart from the [[]] of the array rule the normaliser adds and moves
    nothing: when the rule does not fire, or there is no [&] to mark, the
    result is the name with some of its characters deleted. *)
Theorem clean_demangled_only_deletes (name : str) :
  AMP ∉ name ∨ Re.search_TryGet_Array (strip_return_type name) = false →
  clean_demangled name `sublist_of` name.
Proof.
  intros H. unfold clean_demangled.
  assert (Hm : mark_array_refs (strip_return_type name)
               = strip_return_type name).
  { unfold mark_array_refs. destruct H as [Hamp| ->]; [|done].
    destruct (Re.search_TryGet_Array _); [|done].
    apply replace_fixed_iff. intros Hin. apply Hamp.
    destruct (strip_return_type_suffix name) as [k Hk].
    rewrite Hk. apply elem_of_app. by right. }
  rewrite Hm. etrans; [apply sub_spaces_sublist|].
  destruct (strip_return_type_suffix name) as [k Hk].
  rewrite Hk at 2. apply sublist_inserts_l. done.
Qed.

Lemma clean_demangled_only_deletes_witness :
  clean_demangled (py "ReturnType NS::Class::Method(int)")
    `sublist_of` py "ReturnType NS::Class::Method(int)".
Proof.
  apply (clean_demangled_only_deletes (py "ReturnType NS::Class::Method(int)")).
  left. apply (bool_decide_unpack _). vm_compute. exact I.
Defined.

(** ** More on the loop *)

(** X6. No key of the final [xref_data] starts with a skipped namespace or
    holds a skipped marker. *)
Theorem keys_pass_both_rules (E : Engine) (Functions : list Z) (k : str) :
  is_Some (xref_data (main E Functions) !! k) →
  (∀ p s, p ∈ skipped_namespaces → k ≠ p ++ s)
  ∧ (∀ m a b, m ∈ skipped_markers → k ≠ a ++ m ++ b).
Proof.
  intros [r H].
  apply main_lookup_inv in H as (f & _ & Hv).
  apply visit_function_assign in Hv as (_ & _ & Hk & _).
  unfold isApplicationCode in Hk.
  apply andb_true_iff in Hk as [Hn Hm].
  apply negb_true_iff in Hn, Hm. split.
  - intros p s Hp ->.
    assert (in_skipped_namespace (p ++ s) = true); [|congruence].
    apply existsb_exists. exists p.
    split; [by apply list_elem_of_In | apply startswith_app].
  - intros m a b Hin ->.
    assert (has_skipped_marker (a ++ m ++ b) = true); [|congruence].
    apply existsb_exists. exists m.
    split; [by apply list_elem_of_In | apply contains_app].
Qed.

Lemma keys_pass_both_rules_witness :
  (∀ p s, p ∈ skipped_namespaces → Demo.A ≠ p ++ s)
  ∧ (∀ m a b, m ∈ skipped_markers → Demo.A ≠ a ++ m ++ b).
Proof.
  apply (keys_pass_both_rules Demo.demo [0x1000; 0x2000; 0x3000]%Z Demo.A).
  vm_compute. by eexists.
Defined.

Lemma visit_function_assign_full (E : Engine) (func_ea : Z) (k : str)
    (r : CallRecord) :
  visit_function E func_ea = Ok (Assign k r) →
  ∃ flags n d callers,
    get_full_flags E func_ea = Ok flags
    ∧ is_code E flags = Ok true
    ∧ get_name E func_ea = Ok (Some n)
    ∧ n ≠ []
    ∧ Str.contains (py "::") n = false
    ∧ demangle_name E (Some n) DEMANGLER = Ok (Some d)
    ∧ k = clean_demangled d
    ∧ collect_callers E (XrefsTo E func_ea 0) [] = Ok callers
    ∧ isApplicationCode k = true
    ∧ r = {| CallCount := length callers; Usages := sorted callers |}.
Proof.
  unfold visit_function, bind.
  destruct (get_full_flags E func_ea) as [flags|]; [|done].
  destruct (is_code E flags) as [[]|] eqn:Hcode; simpl; [|done..].
  destruct (get_name E func_ea) as [[[|x n]|]|]; [done| |done..].
  change (negb (truthy (Some (x :: n)))
          || Str.contains (py "::") (default [] (Some (x :: n))))
    with (Str.contains (py "::") (x :: n)).
  destruct (Str.contains (py "::") (x :: n)) eqn:Hraw; [done|].
  destruct (demangle_name E _ DEMANGLER) as [[d|]|] eqn:Hd; [|done..].
  destruct (collect_callers E _ []) as [callers|]; [|done].
  unfold isApplicationCode.
  destruct (in_skipped_namespace _) eqn:Hn; [done|].
  destruct (has_skipped_marker _) eqn:Hm; [done|].
  intros [= <- <-]. exists flags, (x :: n), d, callers.
  by rewrite Hn, Hm.
Qed.

(** When a function is assigned: it is code, it has a non-empty raw name
    without [::], that name demangles (to any string, the empty one
    included), no query of the inner loop raises, and the cleaned name
    passes both rules. The record is the count and the sorted list of the
    collected callers. *)
Lemma visit_function_assign_iff (E : Engine) (func_ea : Z) (k : str)
    (r : CallRecord) :
  visit_function E func_ea = Ok (Assign k r)
  ↔ ∃ flags n d callers,
      get_full_flags E func_ea = Ok flags
      ∧ is_code E flags = Ok true
      ∧ get_name E func_ea = Ok (Some n)
      ∧ n ≠ []
      ∧ Str.contains (py "::") n = false
      ∧ demangle_name E (Some n) DEMANGLER = Ok (Some d)
      ∧ k = clean_demangled d
      ∧ collect_callers E (XrefsTo E func_ea 0) [] = Ok callers
      ∧ isApplicationCode k = true
      ∧ r = {| CallCount := length callers; Usages := sorted callers |}.
Proof.
  split; [apply visit_function_assign_full|].
  intros (flags & n & d & callers & Hf & Hc & Hn & Hne & Hraw & Hd & -> & Hcs
          & Hk & ->).
  unfold visit_function, bind. rewrite Hf, Hc, Hn. simpl.
  destruct n as [|x n]; [done|].
  change (negb (truthy (Some (x :: n)))
          || Str.contains (py "::") (default [] (Some (x :: n))))
    with (Str.contains (py "::") (x :: n)).
  rewrite Hraw, Hd, Hcs.
  unfold isApplicationCode in Hk. apply andb_true_iff in Hk as [H1 H2].
  apply negb_true_iff in H1, H2. by rewrite H1, H2.
Qed.

Lemma caller_of_whitespace_free (E : Engine) (frm : Z) (c : str) :
  caller_of E frm = Some c → whitespace_free c.
Proof.
  intros H. apply caller_of_qualifying in H as (_ & _ & d & _ & _ & _ & _ & _ & ->).
  apply sub_spaces_whitespace_free.
Qed.

(** X8. Keys and callers are normalised names: none holds white space. *)
Theorem records_hold_clean_names (E : Engine) (Functions : list Z) (k : str)
    (r : CallRecord) :
  xref_data (main E Functions) !! k = Some r →
  whitespace_free k ∧ Forall whitespace_free (Usages r).
Proof.
  intros H.
  apply main_lookup_inv in H as (f & _ & Hv).
  apply visit_function_assign_full in Hv
    as (_ & _ & d & callers & _ & _ & _ & _ & _ & _ & -> & Hc & _ & ->).
  split; [apply sub_spaces_whitespace_free|]. simpl.
  apply Forall_forall. intros c Hin.
  rewrite sorted_Permutation in Hin.
  apply collect_callers_caller_of in Hc as ->. simpl in Hin.
  apply list_elem_of_omap in Hin as (frm & _ & Hfrm).
  by eapply caller_of_whitespace_free.
Qed.

Lemma records_hold_clean_names_witness :
  whitespace_free Demo.A ∧ Forall whitespace_free [Demo.B; Demo.C].
Proof.
  apply (records_hold_clean_names Demo.demo [0x1000; 0x2000; 0x3000]%Z Demo.A
           {| CallCount := 2; Usages := [Demo.B; Demo.C] |}).
  vm_compute. reflexivity.
Defined.

(** X9. The keys of the final [xref_data] are the names under which some
    function was assigned: no key is made up and none is dropped. *)
Theorem keys_are_assigned_names (E : Engine) (Functions : list Z) (k : str) :
  is_Some (xref_data (main E Functions) !! k)
  ↔ ∃ func_ea r,
      func_ea ∈ Functions ∧ visit_function E func_ea = Ok (Assign k r).
Proof.
  split.
  - intros [r H]. apply main_lookup_inv in H as (f & Hf & Hv). by exists f, r.
  - intros (f & r & Hf & Hv). by eapply main_assigned.
Qed.

(** X10. The last write wins: the record under a name is the one of the last
    function assigned under it. *)
Theorem last_assignment_wins (E : Engine) (before after : list Z)
    (func_ea : Z) (k : str) (r : CallRecord) :
  visit_function E func_ea = Ok (Assign k r) →
  (∀ f r', f ∈ after → visit_function E f ≠ Ok (Assign k r')) →
  xref_data (main E (before ++ func_ea :: after)) !! k = Some r.
Proof.
  intros Hv Hlater. rewrite main_app.
  rewrite foldl_step_lookup_stable by done.
  unfold step. rewrite Hv. simpl. apply lookup_insert_eq.
Qed.

Lemma last_assignment_wins_witness :
  xref_data (main Demo.demo ([0x5000] ++ 0x1000 :: [0x2000])%Z) !! Demo.A
  = Some {| CallCount := 2; Usages := [Demo.B; Demo.C] |}.
Proof.
  apply (last_assignment_wins Demo.demo [0x5000]%Z [0x2000]%Z 0x1000%Z).
  - vm_compute. reflexivity.
  - intros f r' Hf. apply list_elem_of_singleton in Hf as ->.
    vm_compute. intros [= Hk].
Defined.

Lemma main_lookup_unique (E : Engine) (fs : list Z) (k : str)
    (r : CallRecord) :
  (∀ f g r1 r2,
     f ∈ fs → g ∈ fs →
     visit_function E f = Ok (Assign k r1) →
     visit_function E g = Ok (Assign k r2) → r1 = r2) →
  xref_data (main E fs) !! k = Some r
  ↔ ∃ f, f ∈ fs ∧ visit_function E f = Ok (Assign k r).
Proof.
  intros Hu. split; [apply main_lookup_inv|].
  intros (f & Hf & Hv).
  destruct (main_assigned E fs f k r Hf Hv) as [r' Hr'].
  rewrite Hr'. f_equal.
  apply main_lookup_inv in Hr' as (g & Hg & Hv').
  by apply (Hu g f).
Qed.

(** X11. When no two functions are assigned different records under one name,
    the final [xref_data] does not depend on the order in which
    [Functions()] yields them. *)
Theorem xref_data_order_independent (E : Engine) (fs fs' : list Z) :
  fs ≡ₚ fs' →
  (∀ f g k r1 r2,
     f ∈ fs → g ∈ fs →
     visit_function E f = Ok (Assign k r1) →
     visit_function E g = Ok (Assign k r2) → r1 = r2) →
  xref_data (main E fs) = xref_data (main E fs').
Proof.
  intros Hp Hu. apply map_eq. intros k.
  assert (Hu' : ∀ f g r1 r2,
            f ∈ fs' → g ∈ fs' →
            visit_function E f = Ok (Assign k r1) →
            visit_function E g = Ok (Assign k r2) → r1 = r2).
  { intros f g r1 r2 Hf Hg. rewrite <- Hp in Hf, Hg. by apply Hu. }
  apply option_eq. intros r.
  rewrite (main_lookup_unique E fs k r) by (intros f g; apply Hu).
  rewrite (main_lookup_unique E fs' k r) by done.
  by setoid_rewrite Hp.
Qed.

Lemma xref_data_order_independent_witness :
  xref_data (main Demo.demo [0x1000; 0x2000; 0x3000]%Z)
  = xref_data (main Demo.demo [0x3000; 0x2000; 0x1000]%Z).
Proof.
  apply (xref_data_order_independent Demo.demo).
  - apply (bool_decide_unpack _). vm_compute. exact I.
  - intros f g k r1 r2 Hf Hg.
    repeat (apply elem_of_cons in Hf as [->|Hf]);
      [| | |by apply elem_of_nil in Hf];
      (repeat (apply elem_of_cons in Hg as [->|Hg]);
       [| | |by apply elem_of_nil in Hg]);
      vm_compute; congruence.
Defined.

Lemma foldl_step_printed (E : Engine) (fs : list Z) (st : State) :
  printed (foldl (step E) st fs) = printed st ++ omap (log_of E) fs.
Proof.
  revert st; induction fs as [|f fs IH]; intros st; simpl.
  - by rewrite app_nil_r.
  - rewrite IH. unfold step, log_of.
    destruct (visit_function E f) as [[|k r]|e]; simpl; [done..|].
    by rewrite <- app_assoc.
Qed.

(** X12. What is printed: one line for each function whose visit raises, in
    the order of the functions, and nothing else. *)
Theorem printed_is_the_raising_functions (E : Engine) (Functions : list Z) :
  printed (main E Functions) = omap (log_of E) Functions.
Proof. unfold main. by rewrite foldl_step_printed. Qed.

Lemma foldl_step_size (E : Engine) (fs : list Z) (st : State) :
  size (xref_data (foldl (step E) st fs))
    + length (printed (foldl (step E) st fs))
  ≤ size (xref_data st) + length (printed st) + length fs.
Proof.
  revert st; induction fs as [|f fs IH]; intros st; simpl; [lia|].
  etrans; [apply IH|]. unfold step.
  destruct (visit_function E f) as [[|k r]|e]; simpl; [lia| |].
  - rewrite map_size_insert. destruct (xref_data st !! k); simpl; lia.
  - rewrite length_app. simpl. lia.
Qed.

(** X13. A function leaves at most one trace: the keys and the printed lines
    together are no more than the functions visited. *)
Theorem one_trace_per_function (E : Engine) (Functions : list Z) :
  size (xref_data (main E Functions)) + length (printed (main E Functions))
  ≤ length Functions.
Proof.
  pose proof (foldl_step_size E Functions
                {| xref_data := ∅; printed := [] |}) as H.
  simpl in H. by rewrite map_size_empty in H.
Qed.

(** X14. The count is the number of references kept by the inner loop, one
    for each reference and not one for each calling function, and is at
    most the number of references [XrefsTo] yields. *)
Theorem call_count_counts_references (E : Engine) (Functions : list Z)
    (k : str) (r : CallRecord) :
  xref_data (main E Functions) !! k = Some r →
  ∃ func_ea,
    func_ea ∈ Functions
    ∧ CallCount r
      = length (omap (caller_of E) (gen_items (XrefsTo E func_ea 0)))
    ∧ CallCount r ≤ length (gen_items (XrefsTo E func_ea 0)).
Proof.
  intros H.
  apply main_lookup_inv in H as (f & Hf & Hv).
  apply visit_function_assign in Hv as (callers & Hc & _ & ->).
  apply collect_callers_caller_of in Hc as ->. simpl.
  exists f. split_and!; [done..|].
  generalize (gen_items (XrefsTo E f 0)). intros l.
  induction l as [|x l IH]; [done|].
  change (omap (caller_of E) (x :: l))
    with (match caller_of E x with
          | Some c => c :: omap (caller_of E) l
          | None => omap (caller_of E) l
          end).
  destruct (caller_of E x); cbn [length]; lia.
Qed.

Lemma call_count_counts_references_witness :
  ∃ func_ea,
    func_ea ∈ [0x1000; 0x2000; 0x3000]%Z
    ∧ 2 = length (omap (caller_of Demo.demo)
                    (gen_items (XrefsTo Demo.demo func_ea 0)))
    ∧ 2 ≤ length (gen_items (XrefsTo Demo.demo func_ea 0)).
Proof.
  apply (call_count_counts_references Demo.demo [0x1000; 0x2000; 0x3000]%Z
           Demo.B {| CallCount := 2; Usages := [Demo.A; Demo.A] |}).
  vm_compute. reflexivity.
Defined.

(** ** When the loops raise *)

Lemma visit_xref_returns (E : Engine) (callers : list str) (frm : Z) :
  returns (visit_xref E callers frm) ↔ returns (visit_xref E [] frm).
Proof.
  unfold returns, visit_xref, bind.
  destruct (get_full_flags E frm) as [flags|]; [|done].
  destruct (is_code E flags) as [[]|]; [| |done].
  - destruct (get_func_name E frm) as [n|]; [|done].
    destruct (demangle_name E n DEMANGLER) as [d|]; [|done].
    destruct (truthy d); split; intros _; by eexists.
  - split; intros _; by eexists.
Qed.

Lemma collect_callers_returns (E : Engine) (xrefs : generator Z)
    (callers : list str) :
  returns (collect_callers E xrefs callers)
  ↔ gen_raises xrefs = None
    ∧ ∀ frm, frm ∈ gen_items xrefs → returns (visit_xref E [] frm).
Proof.
  revert callers; induction xrefs as [|frm rest IH|e]; intros callers; simpl.
  - split; [|intros _; by eexists].
    intros _. split; [done|]. intros frm Hin. by apply elem_of_nil in Hin.
  - unfold bind at 1.
    destruct (visit_xref E callers frm) as [mid|e] eqn:Hv.
    + rewrite IH. split; intros [Hg Hall]; (split; [done|]).
      * intros x Hx. apply elem_of_cons in Hx as [->|Hx]; [|by apply Hall].
        apply (visit_xref_returns E callers). rewrite Hv. by eexists.
      * intros x Hx. apply Hall. by right.
    + split; [by intros [? ?]|]. intros [_ Hall].
      assert (Hr : returns (visit_xref E callers frm)).
      { apply visit_xref_returns, Hall. by left. }
      rewrite Hv in Hr. by destruct Hr.
  - split; [by intros [? ?] | by intros [? _]].
Qed.

Lemma answered_returns (E : Engine) (frm : Z) :
  answered E frm ↔ returns (visit_xref E [] frm).
Proof.
  unfold answered, returns, visit_xref, bind. split.
  - intros (flags & -> & [->|(-> & n & d & -> & ->)]); [by eexists|].
    destruct (truthy d); by eexists.
  - destruct (get_full_flags E frm) as [flags|]; [|by intros [? ?]].
    destruct (is_code E flags) as [[]|] eqn:Hc; [| |by intros [? ?]].
    + destruct (get_func_name E frm) as [n|]; [|by intros [? ?]].
      destruct (demangle_name E n DEMANGLER) as [d|] eqn:Hd;
        [|by intros [? ?]].
      intros _. exists flags. split; [done|]. right. split; [done|].
      by exists n, d.
    + intros _. exists flags. split; [done|]. by left.
Qed.

(** X15. The inner loop returns, with one name for each reference it
    keeps and in their order, exactly when [XrefsTo] does not raise and,
    for each reference it yields, the flags and the code test return and,
    if the reference is from code, so do the name of its function and the
    demangling. For a reference that is not code the last two are not
    asked: whether they would raise there does not matter. *)
Theorem collect_callers_returns_iff (E : Engine) (xrefs : generator Z) :
  collect_callers E xrefs [] = Ok (omap (caller_of E) (gen_items xrefs))
  ↔ gen_raises xrefs = None
    ∧ ∀ frm, frm ∈ gen_items xrefs → answered E frm.
Proof.
  transitivity (returns (collect_callers E xrefs [])).
  - split.
    + intros H. by eexists.
    + intros [out H]. rewrite H. f_equal.
      by apply collect_callers_caller_of in H.
  - rewrite collect_callers_returns.
    split; intros [Hg Hall]; (split; [done|]); intros frm Hin;
      by apply answered_returns, Hall.
Qed.

Example collect_callers_skips_data :
  collect_callers wary_demo (XrefsTo wary_demo 0x1000 0) []
  = Ok [Demo.B; Demo.C]
  ∧ get_func_name wary_demo 0x8000 = Raise (Exn "ValueError" "no function").
Proof. vm_compute. done. Qed.

Lemma visit_function_returns (E : Engine) (func_ea : Z) :
  quiet E → returns (visit_function E func_ea).
Proof.
  intros (Hflags & Hcode & Hname & Hfunc & Hdem & Hgen).
  assert (Hx : ∀ frm, returns (visit_xref E [] frm)).
  { intros frm. unfold visit_xref, bind.
    destruct (Hflags frm) as [flags ->]. destruct (Hcode flags) as [[] ->];
      [|by eexists].
    destruct (Hfunc frm) as [n ->]. destruct (Hdem n DEMANGLER) as [d ->].
    destruct (truthy d); by eexists. }
  unfold visit_function, bind.
  destruct (Hflags func_ea) as [flags ->].
  destruct (Hcode flags) as [[] ->]; simpl; [|by eexists].
  destruct (Hname func_ea) as [mangled ->].
  destruct (_ || _); [by eexists|].
  destruct (Hdem mangled DEMANGLER) as [[d|] ->]; [|by eexists].
  destruct (proj2 (collect_callers_returns E (XrefsTo E func_ea 0) []))
    as [callers ->]; [by split|].
  destruct (in_skipped_namespace _); [by eexists|].
  destruct (has_skipped_marker _); by eexists.
Qed.

(** X16. Only the engine raises: over an engine whose queries all return
    nothing is printed. *)
Theorem quiet_engine_prints_nothing (E : Engine) (Functions : list Z) :
  quiet E → printed (main E Functions) = [].
Proof.
  intros Hq. unfold main. rewrite foldl_step_printed. simpl.
  induction Functions as [|f fs IH]; [done|].
  change (omap (log_of E) (f :: fs))
    with (match log_of E f with
          | Some x => x :: omap (log_of E) fs
          | None => omap (log_of E) fs
          end).
  unfold log_of at 1.
  by destruct (visit_function_returns E f Hq) as [o ->].
Qed.

Lemma calm_demo_quiet : quiet calm_demo.
Proof.
  split_and!; simpl.
  - intros ea. by eexists.
  - intros flags. by eexists.
  - intros ea. destruct (ea =? 0x4000)%Z; by eexists.
  - intros ea. by eexists.
  - intros name abi. by eexists.
  - intros ea flags. by repeat case_match.
Qed.

Lemma quiet_engine_prints_nothing_witness :
  printed (main calm_demo [0x1000; 0x4000; 0x2000; 0x3000]%Z) = [].
Proof.
  apply (quiet_engine_prints_nothing calm_demo
           [0x1000; 0x4000; 0x2000; 0x3000]%Z calm_demo_quiet).
Defined.

(** ** Functions without callers *)

Lemma omap_all_none {A B} (f : A → option B) (l : list A) :
  (∀ x, x ∈ l → f x = None) → omap f l = [].
Proof.
  induction l as [|x l IH]; intros H; [done|].
  change (omap f (x :: l))
    with (match f x with Some y => y :: omap f l | None => omap f l end).
  rewrite (H x) by by left. apply IH. intros y Hy. apply H. by right.
Qed.

Lemma visit_function_accepted (E : Engine) (func_ea : Z) (k : str)
    (r : CallRecord) :
  visit_function E func_ea = Ok (Assign k r) → accepted E func_ea k.
Proof.
  intros H. apply visit_function_assign_full in H
    as (flags & n & d & callers & ? & ? & ? & ? & ? & ? & ? & _ & ? & _).
  by exists flags, n, d.
Qed.

(** C10, as the code has it. Take a function that is accepted under the
    name [k] (it is code, its raw name is not empty and holds no [::],
    the name demangles, and the cleaned name [k] passes both rules) and
    has no qualifying caller: [XrefsTo] runs to its end, the queries about
    each reference return, and none of the references is kept. Then [k]
    is a key of the final [xref_data]; and the record under [k] is the
    empty one when no function visited later is accepted under [k] (the
    record of such a function would replace it). *)
Theorem no_callers_still_assigned (E : Engine) (before after : list Z)
    (func_ea : Z) (k : str) :
  accepted E func_ea k →
  gen_raises (XrefsTo E func_ea 0) = None →
  (∀ frm, frm ∈ gen_items (XrefsTo E func_ea 0) →
          answered E frm ∧ ∀ c, ¬ qualifying E frm c) →
  let final := main E (before ++ func_ea :: after) in
  is_Some (xref_data final !! k)
  ∧ ((∀ f, f ∈ after → ¬ accepted E f k) →
     xref_data final !! k = Some {| CallCount := 0; Usages := [] |}).
Proof.
  intros Hacc Hgen Hall final.
  assert (Hc : collect_callers E (XrefsTo E func_ea 0) [] = Ok []).
  { destruct (proj2 (collect_callers_returns E (XrefsTo E func_ea 0) []))
      as [out Hout].
    { split; [done|]. intros frm Hin. by apply answered_returns, Hall. }
    rewrite Hout. f_equal.
    apply collect_callers_caller_of in Hout as ->. simpl.
    apply omap_all_none. intros frm Hin.
    destruct (caller_of E frm) as [c|] eqn:Hcaller; [|done].
    apply caller_of_qualifying in Hcaller.
    by destruct (proj2 (Hall frm Hin) c). }
  assert (Hv : visit_function E func_ea
               = Ok (Assign k {| CallCount := 0; Usages := [] |})).
  { apply visit_function_assign_iff.
    destruct Hacc as (flags & n & d & ? & ? & ? & ? & ? & ? & ? & ?).
    exists flags, n, d, []. by split_and!. }
  split.
  - eapply main_assigned; [|done].
    apply elem_of_app. right. by left.
  - intros Hlater. unfold final. rewrite main_app.
    rewrite foldl_step_lookup_stable.
    + unfold step. rewrite Hv. simpl. apply lookup_insert_eq.
    + intros f r' Hf Hr'. apply (Hlater f Hf).
      by eapply visit_function_accepted.
Qed.

Lemma no_callers_still_assigned_witness :
  let final := main Demo.demo ([0x1000; 0x2000] ++ 0x6000 :: [0x3000])%Z in
  is_Some (xref_data final !! Demo.E)
  ∧ xref_data final !! Demo.E = Some {| CallCount := 0; Usages := [] |}.
Proof.
  destruct (no_callers_still_assigned Demo.demo [0x1000; 0x2000]%Z [0x3000]%Z
              0x6000%Z Demo.E) as [Hkey Hrecord].
  - exists Demo.FF_CODE, (py "Game_E"), (py "void Game::E(void)").
    split_and!; try (vm_compute; reflexivity). vm_compute. discriminate.
  - vm_compute. reflexivity.
  - intros frm Hin.
    change (gen_items (XrefsTo Demo.demo 0x6000 0))
      with [0x8000; 0x7010]%Z in Hin.
    apply elem_of_cons in Hin as [->|Hin];
      [|apply list_elem_of_singleton in Hin as ->].
    + split.
      * exists Demo.FF_DATA. split; [vm_compute; reflexivity|].
        left. vm_compute. reflexivity.
      * intros c (flags & n & d & Hf & Hcode & _).
        vm_compute in Hf. injection Hf as <-.
        vm_compute in Hcode. discriminate Hcode.
    + split.
      * exists Demo.FF_CODE. split; [vm_compute; reflexivity|].
        right. split; [vm_compute; reflexivity|].
        exists (Some (py "sub_7000")), None.
        split; vm_compute; reflexivity.
      * intros c (flags & n & d & _ & _ & Hn & Hd & _).
        vm_compute in Hn. injection Hn as <-.
        vm_compute in Hd. discriminate Hd.
  - split; [exact Hkey|]. apply Hrecord.
    intros f Hf. apply list_elem_of_singleton in Hf as ->.
    intros (flags & n & d & _ & _ & Hn & _ & _ & Hd & Hk & _).
    vm_compute in Hn. injection Hn as <-.
    vm_compute in Hd. injection Hd as <-.
    vm_compute in Hk. discriminate Hk.
Defined.

(** C10, counterexample to the empty record in the final [xref_data]:
    [Game_A_0] is accepted under [Game::A(void)] and has no reference at
    all; the function [Game_A], visited next, has the same cleaned name
    and two callers, and its record is the one that stays. *)
Lemma no_callers_record_overwritten :
  ¬ (∀ (E : Engine) (Functions : list Z) (func_ea : Z) (k : str),
       func_ea ∈ Functions →
       accepted E func_ea k →
       gen_raises (XrefsTo E func_ea 0) = None →
       (∀ frm, frm ∈ gen_items (XrefsTo E func_ea 0) →
               answered E frm ∧ ∀ c, ¬ qualifying E frm c) →
       xref_data (main E Functions) !! k
       = Some {| CallCount := 0; Usages := [] |}).
Proof.
  intros H.
  specialize (H Demo.demo [0x5000; 0x1000]%Z 0x5000%Z Demo.A).
  assert (xref_data (main Demo.demo [0x5000; 0x1000]%Z) !! Demo.A
          = Some {| CallCount := 0; Usages := [] |}) as Habs;
    [|by vm_compute in Habs].
  apply H.
  - by left.
  - exists Demo.FF_CODE, (py "Game_A_0"), (py "int Game::A(void)").
    split_and!; try (vm_compute; reflexivity). vm_compute. discriminate.
  - vm_compute. reflexivity.
  - intros frm Hin.
    change (gen_items (XrefsTo Demo.demo 0x5000 0)) with (@nil Z) in Hin.
    by apply elem_of_nil in Hin.
Qed.

Example overwritten_run :
  visit_function Demo.demo 0x5000
  = Ok (Assign Demo.A {| CallCount := 0; Usages := [] |})
  ∧ xref_data (main Demo.demo [0x5000; 0x1000]%Z) !! Demo.A
    = Some {| CallCount := 2; Usages := [Demo.B; Demo.C] |}.
Proof. vm_compute. done. Qed.
